(** * Bisection root finder of the beam-deflection notebook

    Shallow embedding of [sgn], [bisect] and [bisection_iterations] from
    [chapter_2_root_finding/beam_deflection/beam_deflection.ipynb].

    The Python code computes on [float]s.  The embedding is written once,
    over an interface [Arith] that lists the arithmetic the source uses
    (the literals 0, 2.0 and 100, [+], [-], [*], [/], [abs], [<], [==]), and
    is read in two ways:

    - [binary64] : IEEE 754 double precision with round-to-nearest-even, the
      arithmetic of Python's [float] (Rocq's primitive floats); every
      definition evaluates with [vm_compute];
    - [reals]    : the real numbers [R], the data model the specification
      speaks about.

    What is proved for every [Arith] holds for both; what needs exact
    arithmetic is proved for [reals] and tested against [binary64].

    Python integers ([n], [Nmax], the result of [sgn]) are [Z]; the numeric
    arguments are taken to be floats already.  The objective [f] is a total
    function.  An exception is a [result]; [print] appends to the list of
    printed lines; [while True:] runs on fuel, and the theorems show how
    much fuel is enough. *)

From Stdlib Require Import ZArith List String Bool Lia.
From Stdlib Require Import Reals Lra.
From Stdlib Require Import Floats.
Import ListNotations.

(** ** Arithmetic used by the source *)

Class Arith (T : Type) : Type := {
  zero : T;                     (* the literal 0 *)
  two : T;                      (* the literal 2.0 *)
  hundred : T;                  (* the literal 100 *)
  add : T -> T -> T;            (* x + y *)
  sub : T -> T -> T;            (* x - y *)
  mul : T -> T -> T;            (* x * y *)
  quot : T -> T -> T;           (* x / y for a divisor that is not zero *)
  absolute : T -> T;            (* abs(x) *)
  ltb : T -> T -> bool;         (* x < y *)
  eqb : T -> T -> bool          (* x == y *)
}.

(** Python's [float]. *)
#[export] Instance binary64 : Arith float := {
  zero := 0%float;
  two := 2%float;
  hundred := 100%float;
  add := PrimFloat.add;
  sub := PrimFloat.sub;
  mul := PrimFloat.mul;
  quot := PrimFloat.div;
  absolute := PrimFloat.abs;
  ltb := PrimFloat.ltb;
  eqb := PrimFloat.eqb
}.

(** The real number a binary64 value stands for ([0] for the infinities and
    NaN, which stand for none). *)
Definition SF2R (x : spec_float) : R :=
  match x with
  | S754_finite s m e =>
      ((if s then -1 else 1) * IZR (Z.pos m) * powerRZ 2 e)%R
  | _ => 0%R
  end.

Definition binary64_value (x : float) : R := SF2R (Prim2SF x).

Definition Rltb (x y : R) : bool := if Rlt_dec x y then true else false.
Definition Reqb (x y : R) : bool := if Req_dec_T x y then true else false.

(** Exact real arithmetic. *)
#[export] Instance reals : Arith R := {
  zero := 0%R;
  two := 2%R;
  hundred := 100%R;
  add := Rplus;
  sub := Rminus;
  mul := Rmult;
  quot := Rdiv;
  absolute := Rabs;
  ltb := Rltb;
  eqb := Reqb
}.

(** ** Exceptions *)

Inductive exn : Type := ZeroDivisionError.

Inductive result (A : Type) : Type :=
| Ok (x : A)
| Raise (e : exn).

Arguments Ok {A} x.
Arguments Raise {A} e.

Definition bind {A B : Type} (m : result A) (k : A -> result B) : result B :=
  match m with
  | Ok x => k x
  | Raise e => Raise e
  end.

Notation "x <- m ;; k" := (bind m (fun x => k))
  (at level 61, m at next level, right associativity).

(** The objective function, called as [f(x,L,w,E,I,delta)]. *)
Definition objective (T : Type) : Type := T -> T -> T -> T -> T -> T -> T.

Section Bisection.

Context {T : Type} {A : Arith T}.

(** Python's [x / y]: raises on a zero divisor. *)
Definition truediv (x y : T) : result T :=
  if eqb y zero then Raise ZeroDivisionError else Ok (quot x y).

(** [sgn(x)] *)
Definition sgn (x : T) : Z :=
  if ltb zero x then 1
  else if ltb x zero then -1
  else 0.

(** [(a+b)/2.0]: the divisor is the literal 2.0, so the division cannot
    raise (lemma [midpoint_truediv]). *)
Definition midpoint (a b : T) : T := quot (add a b) two.

(** [bisect(f,a,b,L,w,E,I,delta)] *)
Definition bisect (f : objective T) (a b L w E I delta : T) : T * T :=
  let fa := f a L w E I delta in
  let fb := f b L w E I delta in
  let p := midpoint a b in
  let fp := f p L w E I delta in
  if (sgn fa =? sgn fp)%Z then (p, b) else (a, p).

(** [abs((xr_new-xr_old)/xr_new)*100], the right-hand side of the
    assignment to [eps_r]. *)
Definition relative_error (xr_new xr_old : T) : result T :=
  q <- truediv (sub xr_new xr_old) xr_new ;;
  Ok (mul (absolute q) hundred).

(** The local variables of [bisection_iterations], the lines printed so far,
    and a history variable that counts the calls of [bisect] made so far (it
    is not a variable of the source and nothing reads it). *)
Record locals : Type := Locals {
  var_a : T;
  var_b : T;
  var_n : Z;
  var_xr_old : T;
  var_eps_r : T;
  printed : list string;
  bisect_calls : nat
}.

Inductive flow : Type := Break | Continue.

Definition cap_message : string := "Maximum iteration number reached!".

(** One pass through the body of [while True:]. *)
Definition loop_body (f : objective T) (L w E I delta eps : T) (Nmax : Z)
    (s : locals) : result (flow * locals) :=
  let n := (var_n s + 1)%Z in
  if (n >? Nmax)%Z then
    Ok (Break,
        {| var_a := var_a s; var_b := var_b s; var_n := n;
           var_xr_old := var_xr_old s; var_eps_r := var_eps_r s;
           printed := printed s ++ [cap_message];
           bisect_calls := bisect_calls s |})
  else
    let '(a, b) := bisect f (var_a s) (var_b s) L w E I delta in
    let xr_new := midpoint a b in
    eps_r <- relative_error xr_new (var_xr_old s) ;;
    if ltb eps_r eps then
      Ok (Break,
          {| var_a := a; var_b := b; var_n := n;
             var_xr_old := var_xr_old s; var_eps_r := eps_r;
             printed := printed s;
             bisect_calls := S (bisect_calls s) |})
    else
      Ok (Continue,
          {| var_a := a; var_b := b; var_n := n;
             var_xr_old := xr_new; var_eps_r := eps_r;
             printed := printed s;
             bisect_calls := S (bisect_calls s) |}).

(** [while True:] with a bound on the number of passes; [None] when the
    bound is used up before the loop is left. *)
Fixpoint while_true (fuel : nat) (body : locals -> result (flow * locals))
    (s : locals) : option (result locals) :=
  match fuel with
  | O => None
  | S fuel' =>
      match body s with
      | Raise e => Some (Raise e)
      | Ok (Break, s') => Some (Ok s')
      | Ok (Continue, s') => while_true fuel' body s'
      end
  end.

(** What a call that returns leaves behind: the returned pair
    [((a+b)/2.0), n] and the final local state. *)
Record outcome : Type := Outcome {
  returned : T * Z;
  final : locals
}.

(** The state on entry to the loop: [n = 0], [xr_old = (a+b)/2.0],
    [eps_r = 0.0]. *)
Definition entry (a b : T) : locals :=
  {| var_a := a; var_b := b; var_n := 0;
     var_xr_old := midpoint a b; var_eps_r := zero;
     printed := []; bisect_calls := 0 |}.

(** [bisection_iterations(f,L,w,E,I,delta,a,b,eps,Nmax)] *)
Definition bisection_iterations (fuel : nat) (f : objective T)
    (L w E I delta a b eps : T) (Nmax : Z) : option (result outcome) :=
  match while_true fuel (loop_body f L w E I delta eps Nmax) (entry a b) with
  | None => None
  | Some (Raise e) => Some (Raise e)
  | Some (Ok s) =>
      Some (Ok {| returned := (midpoint (var_a s) (var_b s), var_n s);
                  final := s |})
  end.

End Bisection.

(** ** The notebook's problem, in binary64 *)

Module Notebook.

(** [f(x,L,w,E,I,delta)], that is [delta+w*x/24/E/I*(L**3-2*L*x**2+x**3)].
    The powers are written as products (the library's [pow] may differ from
    them in the last bit; [bisect] reads the sign of [f] only), and [/] is
    IEEE division, the divisors [24], [E] and [I] being nonzero below. *)
Definition f : objective float :=
  fun x L w E I delta =>
    (delta + w * x / 24 / E / I
             * (L * L * L - 2 * L * (x * x) + x * x * x))%float.

(** The cell's variables: [L = 1], [w = 1000], [E = 200E6],
    [I = 800000E-12], [delta = -0.04], [a = 0.0], [b = 0.5], [eps = 1e-4],
    [Nmax = 100]. *)
Definition L : float := 1.
Definition w : float := 1000.
Definition E : float := 0x1.7d784p+27.
Definition I : float := 0x1.ad7f29abcaf48p-21.
Definition delta : float := (-0x1.47ae147ae147bp-5)%float.
Definition a : float := 0.
Definition b : float := 0.5.
Definition eps : float := 0x1.a36e2eb1c432dp-14.
Definition Nmax : Z := 100.

End Notebook.

(** ** Measuring a run: the intervals and estimates the loop goes through *)

Section Iterates.

Context {T : Type} {A : Arith T}.
Variable f : objective T.
Variables L w E I delta : T.

(** The working interval after [k] calls of [bisect], from [(a, b)]. *)
Fixpoint interval_after (k : nat) (a b : T) : T * T :=
  match k with
  | O => (a, b)
  | S k' =>
      let '(a', b') := interval_after k' a b in
      bisect f a' b' L w E I delta
  end.

(** Its midpoint [(a+b)/2.0]: the estimate [xr_new] of pass [k], and the
    value of [xr_old] on entry for [k = 0]. *)
Definition estimate_after (k : nat) (a b : T) : T :=
  let '(a', b') := interval_after k a b in midpoint a' b'.

Variable eps : T.

(** Pass [k+1] of the loop computes [eps_r] (no exception) and goes on. *)
Definition pass_continues (a b : T) (k : nat) : Prop :=
  exists e, relative_error (estimate_after (S k) a b) (estimate_after k a b) = Ok e
            /\ ltb e eps = false.

(** Pass [k+1] computes [eps_r] and leaves the loop by [eps_r < eps]. *)
Definition pass_converges (a b : T) (k : nat) : Prop :=
  exists e, relative_error (estimate_after (S k) a b) (estimate_after k a b) = Ok e
            /\ ltb e eps = true.

(** Pass [k+1] divides by a midpoint that is zero. *)
Definition pass_faults (a b : T) (k : nat) : Prop :=
  eqb (estimate_after (S k) a b) zero = true.

End Iterates.

(** ** Facts about the arithmetic *)

(** What the proofs below use of an arithmetic, beyond its operations; both
    readings satisfy it. *)
Class ArithLaws (T : Type) {A : Arith T} : Prop := {
  two_not_zero : eqb two zero = false;
  abs_quot : forall x y : T,
    absolute (quot x y) = quot (absolute x) (absolute y);
  zero_unsigned : forall x : T,
    eqb x zero = true -> ltb zero x = false /\ ltb x zero = false
}.

Arguments ArithLaws T {A}.

Lemma SFabs_binary_round_aux (s : bool) (m e : Z) (l : location) :
  SFabs (binary_round_aux prec emax s m e l)
  = binary_round_aux prec emax false m e l.
Proof.
  unfold binary_round_aux.
  destruct (shr_fexp prec emax m e l) as [mrs' e'].
  destruct (shr_fexp prec emax _ e' _) as [mrs'' e''].
  destruct (shr_m mrs''); try reflexivity.
  destruct (Z.leb _ _); reflexivity.
Qed.

Lemma SFabs_SF64div (x y : spec_float) :
  SFabs (SF64div x y) = SF64div (SFabs x) (SFabs y).
Proof.
  unfold SF64div, SFdiv.
  destruct x as [sx|sx| |sx mx ex], y as [sy|sy| |sy my ey]; try reflexivity.
  cbn [SFabs xorb].
  destruct (SFdiv_core_binary prec emax (Z.pos mx) ex (Z.pos my) ey)
    as [[mz ez] lz].
  apply SFabs_binary_round_aux.
Qed.

Lemma binary64_abs_div (x y : float) :
  PrimFloat.abs (x / y) = (PrimFloat.abs x / PrimFloat.abs y)%float.
Proof.
  apply Prim2SF_inj.
  rewrite abs_spec, !div_spec, !abs_spec.
  apply SFabs_SF64div.
Qed.

Lemma binary64_zero_unsigned (x : float) :
  PrimFloat.eqb x 0 = true ->
  PrimFloat.ltb 0 x = false /\ PrimFloat.ltb x 0 = false.
Proof.
  rewrite eqb_spec, !ltb_spec.
  change (Prim2SF 0) with (S754_zero false).
  destruct (Prim2SF x) as [s|s| |s m e]; try destruct s; cbn;
    intuition congruence.
Qed.

#[export] Instance binary64_laws : ArithLaws float.
Proof.
  split.
  - reflexivity.
  - exact binary64_abs_div.
  - exact binary64_zero_unsigned.
Qed.

Lemma Rltb_true (x y : R) : Rltb x y = true <-> (x < y)%R.
Proof. unfold Rltb; destruct (Rlt_dec x y); split; intros; easy. Qed.

Lemma Rltb_false (x y : R) : Rltb x y = false <-> ~ (x < y)%R.
Proof. unfold Rltb; destruct (Rlt_dec x y); split; intros; easy. Qed.

Lemma Reqb_true (x y : R) : Reqb x y = true <-> x = y.
Proof. unfold Reqb; destruct (Req_dec_T x y); split; intros; easy. Qed.

Lemma Reqb_false (x y : R) : Reqb x y = false <-> x <> y.
Proof. unfold Reqb; destruct (Req_dec_T x y); split; intros; easy. Qed.

#[export] Instance reals_laws : ArithLaws R.
Proof.
  split; cbn.
  - apply Reqb_false; lra.
  - intros x y. unfold Rdiv. now rewrite Rabs_mult, Rabs_inv.
  - intros x Hx. apply Reqb_true in Hx. subst x.
    split; apply Rltb_false; lra.
Qed.

(** ** The loop, pass by pass *)

Section Run.

Context {T : Type} {A : Arith T}.
Variable f : objective T.
Variables L w E I delta eps : T.
Variable Nmax : Z.
Variables a b : T.

Local Abbreviation body := (loop_body f L w E I delta eps Nmax).
Local Abbreviation iv k := (interval_after f L w E I delta k a b).
Local Abbreviation est k := (estimate_after f L w E I delta k a b).
Local Abbreviation N := (Z.to_nat Nmax).

Lemma midpoint_truediv {AL : ArithLaws T} (x y : T) :
  truediv (add x y) two = Ok (midpoint x y).
Proof. unfold truediv. now rewrite two_not_zero. Qed.

Lemma relative_error_zero (new old : T) :
  eqb new zero = true -> relative_error new old = Raise ZeroDivisionError.
Proof. intros H. unfold relative_error, truediv. now rewrite H. Qed.

Lemma relative_error_nonzero (new old : T) :
  eqb new zero = false ->
  relative_error new old = Ok (mul (absolute (quot (sub new old) new)) hundred).
Proof. intros H. unfold relative_error, truediv. now rewrite H. Qed.

Lemma relative_error_raises (new old : T) (e : exn) :
  relative_error new old = Raise e -> eqb new zero = true.
Proof.
  destruct (eqb new zero) eqn:H; [reflexivity|].
  now rewrite (relative_error_nonzero _ _ H).
Qed.

Lemma relative_error_defined (new old e : T) :
  relative_error new old = Ok e -> eqb new zero = false.
Proof.
  destruct (eqb new zero) eqn:H; [|reflexivity].
  now rewrite (relative_error_zero _ _ H).
Qed.

Lemma estimate_after_interval (k : nat) :
  est k = midpoint (fst (iv k)) (snd (iv k)).
Proof. unfold estimate_after. now destruct interval_after. Qed.

Lemma interval_after_S (k : nat) :
  iv (S k) = bisect f (fst (iv k)) (snd (iv k)) L w E I delta.
Proof. cbn. now destruct interval_after. Qed.

(** The three ways a pass can end exclude each other. *)
Lemma continues_not_converges (k : nat) :
  pass_continues f L w E I delta eps a b k ->
  pass_converges f L w E I delta eps a b k -> False.
Proof.
  intros [e [He Hlt]] [e' [He' Hlt']]. rewrite He in He'.
  injection He' as <-. congruence.
Qed.

Lemma continues_not_faults (k : nat) :
  pass_continues f L w E I delta eps a b k ->
  pass_faults f L w E I delta a b k -> False.
Proof.
  intros [e [He _]] Hz. apply relative_error_defined in He.
  unfold pass_faults in Hz. congruence.
Qed.

Lemma converges_not_faults (k : nat) :
  pass_converges f L w E I delta eps a b k ->
  pass_faults f L w E I delta a b k -> False.
Proof.
  intros [e [He _]] Hz. apply relative_error_defined in He.
  unfold pass_faults in Hz. congruence.
Qed.

Lemma pass_cases (k : nat) :
  pass_faults f L w E I delta a b k
  \/ pass_converges f L w E I delta eps a b k
  \/ pass_continues f L w E I delta eps a b k.
Proof.
  unfold pass_faults, pass_converges, pass_continues.
  destruct (eqb (est (S k)) zero) eqn:Hz; [now left|right].
  rewrite (relative_error_nonzero _ _ Hz).
  destruct (ltb (mul (absolute (quot (sub (est (S k)) (est k)) (est (S k))))
                     hundred) eps) eqn:Hlt.
  - left. eauto.
  - right. eauto.
Qed.

(** The loop test [n > Nmax] after [n = n + 1], when [k] passes are done. *)
Lemma cap_test (k : nat) :
  (Z.of_nat k + 1 >? Nmax)%Z = true <-> (N <= k)%nat.
Proof. rewrite Z.gtb_ltb, Z.ltb_lt. lia. Qed.

Lemma cap_test_false (k : nat) :
  (Z.of_nat k + 1 >? Nmax)%Z = false <-> (k < N)%nat.
Proof.
  destruct (Z.of_nat k + 1 >? Nmax)%Z eqn:H.
  - apply cap_test in H. split; [discriminate|lia].
  - split; [intros _|reflexivity].
    destruct (Nat.lt_ge_cases k N) as [Hk|Hk]; [exact Hk|].
    apply cap_test in Hk. congruence.
Qed.

(** The local state after [k] passes that all went on. *)
Definition after_passes (k : nat) (s : locals) : Prop :=
  var_n s = Z.of_nat k
  /\ (var_a s, var_b s) = iv k
  /\ var_xr_old s = est k
  /\ printed s = []
  /\ bisect_calls s = k.

(** The local state when pass [k] left the loop by [eps_r < eps]. *)
Definition left_converged (k : nat) (s : locals) : Prop :=
  var_n s = Z.of_nat k
  /\ (var_a s, var_b s) = iv k
  /\ printed s = []
  /\ bisect_calls s = k.

(** The local state when the loop was left by [n > Nmax]. *)
Definition left_capped (s : locals) : Prop :=
  var_n s = (Z.of_nat N + 1)%Z
  /\ (var_a s, var_b s) = iv N
  /\ printed s = [cap_message]
  /\ bisect_calls s = N.

Lemma entry_after_passes : after_passes 0 (entry a b).
Proof. repeat split. Qed.

Lemma pass_at_cap (k : nat) (s : locals) :
  after_passes k s -> (N <= k)%nat -> (k <= N)%nat ->
  exists s', body s = Ok (Break, s') /\ left_capped s'.
Proof.
  intros (Hn & Hab & Hold & Hpr & Hc) Hle Hge.
  assert (HkN : N = k) by lia.
  assert (Hg : (Z.of_nat k + 1 >? Nmax)%Z = true) by (now apply cap_test).
  unfold loop_body. cbv zeta. rewrite Hn, Hg.
  eexists. split; [reflexivity|].
  unfold left_capped; cbn [var_n var_a var_b printed bisect_calls].
  rewrite Hpr, HkN. repeat split; assumption.
Qed.

Lemma pass_below_cap (k : nat) (s : locals) :
  after_passes k s -> (k < N)%nat ->
  body s =
    (eps_r <- relative_error (est (S k)) (est k) ;;
     if ltb eps_r eps then
       Ok (Break,
           {| var_a := fst (iv (S k)); var_b := snd (iv (S k));
              var_n := Z.of_nat (S k);
              var_xr_old := est k; var_eps_r := eps_r;
              printed := []; bisect_calls := S k |})
     else
       Ok (Continue,
           {| var_a := fst (iv (S k)); var_b := snd (iv (S k));
              var_n := Z.of_nat (S k);
              var_xr_old := est (S k); var_eps_r := eps_r;
              printed := []; bisect_calls := S k |})).
Proof.
  intros (Hn & Hab & Hold & Hpr & Hc) Hlt.
  unfold loop_body. cbv zeta. rewrite Hn.
  assert (Hg : (Z.of_nat k + 1 >? Nmax)%Z = false) by (now apply cap_test_false).
  rewrite Hg.
  rewrite (estimate_after_interval (S k)), (interval_after_S k).
  rewrite <- Hab. cbn [fst snd].
  destruct (bisect f (var_a s) (var_b s) L w E I delta) as [a' b'].
  cbn [fst snd]. rewrite Hold, Hpr, Hc.
  replace (Z.of_nat k + 1)%Z with (Z.of_nat (S k)) by lia.
  reflexivity.
Qed.

Lemma pass_fault (k : nat) (s : locals) :
  after_passes k s -> (k < N)%nat ->
  pass_faults f L w E I delta a b k ->
  body s = Raise ZeroDivisionError.
Proof.
  intros Hs Hk Hz. rewrite (pass_below_cap _ _ Hs Hk).
  now rewrite (relative_error_zero _ _ Hz).
Qed.

Lemma pass_converge (k : nat) (s : locals) :
  after_passes k s -> (k < N)%nat ->
  pass_converges f L w E I delta eps a b k ->
  exists s', body s = Ok (Break, s') /\ left_converged (S k) s'.
Proof.
  intros Hs Hk [e [He Hlt]]. rewrite (pass_below_cap _ _ Hs Hk), He.
  cbn [bind]. rewrite Hlt. eexists; split; [reflexivity|].
  repeat split. cbn [var_a var_b]. symmetry; apply surjective_pairing.
Qed.

Lemma pass_continue (k : nat) (s : locals) :
  after_passes k s -> (k < N)%nat ->
  pass_continues f L w E I delta eps a b k ->
  exists s', body s = Ok (Continue, s') /\ after_passes (S k) s'.
Proof.
  intros Hs Hk [e [He Hlt]]. rewrite (pass_below_cap _ _ Hs Hk), He.
  cbn [bind]. rewrite Hlt. eexists; split; [reflexivity|].
  repeat split. cbn [var_a var_b]. symmetry; apply surjective_pairing.
Qed.

(** How the loop is left, started after [k] passes with enough fuel for
    the passes that remain. *)
Inductive loop_exit (k : nat) (r : option (result locals)) : Prop :=
| Exit_fault (j : nat) :
    (k <= j < N)%nat ->
    (forall i, (k <= i < j)%nat -> pass_continues f L w E I delta eps a b i) ->
    pass_faults f L w E I delta a b j ->
    r = Some (Raise ZeroDivisionError) ->
    loop_exit k r
| Exit_converged (j : nat) (s : locals) :
    (k <= j < N)%nat ->
    (forall i, (k <= i < j)%nat -> pass_continues f L w E I delta eps a b i) ->
    pass_converges f L w E I delta eps a b j ->
    r = Some (Ok s) -> left_converged (S j) s ->
    loop_exit k r
| Exit_capped (s : locals) :
    (forall i, (k <= i < N)%nat -> pass_continues f L w E I delta eps a b i) ->
    r = Some (Ok s) -> left_capped s ->
    loop_exit k r.

Lemma while_true_exit (fuel : nat) :
  forall (k : nat) (s : locals),
    after_passes k s -> (k <= N)%nat -> (N - k < fuel)%nat ->
    loop_exit k (while_true fuel body s).
Proof.
  induction fuel as [|fuel IH]; intros k s Hs Hk Hfuel; [lia|].
  cbn [while_true].
  destruct (Nat.eq_dec k N) as [->|Hne].
  - destruct (pass_at_cap _ _ Hs) as [s' [Hb Hs']]; [lia|lia|].
    rewrite Hb. apply Exit_capped with s'; auto. intros i Hi; lia.
  - assert (Hlt : (k < N)%nat) by lia.
    destruct (pass_cases k) as [Hz|[Hc|Hc]].
    + rewrite (pass_fault _ _ Hs Hlt Hz).
      apply Exit_fault with k; auto. intros i Hi; lia.
    + destruct (pass_converge _ _ Hs Hlt Hc) as [s' [Hb Hs']]. rewrite Hb.
      apply Exit_converged with k s'; auto. intros i Hi; lia.
    + destruct (pass_continue _ _ Hs Hlt Hc) as [s' [Hb Hs']]. rewrite Hb.
      assert (Hstep : forall j i, (k <= i < j)%nat ->
                (forall i', (S k <= i' < j)%nat ->
                   pass_continues f L w E I delta eps a b i') ->
                pass_continues f L w E I delta eps a b i).
      { intros j i Hi Hall. destruct (Nat.eq_dec i k) as [->|Hik]; [exact Hc|].
        apply Hall; lia. }
      destruct (IH (S k) s' Hs') as [j Hj Hall Hz Hr|j s'' Hj Hall Hcv Hr Hf
                                     |s'' Hall Hr Hf]; [lia|lia| | |].
      * apply Exit_fault with j; auto; [lia|]. intros i Hi; eapply Hstep; eauto.
      * apply Exit_converged with j s''; auto; [lia|].
        intros i Hi; eapply Hstep; eauto.
      * apply Exit_capped with s''; auto. intros i Hi; eapply Hstep; eauto.
Qed.

(** How a call ends, given enough fuel. *)
Inductive call_exit (r : option (result outcome)) : Prop :=
| Call_fault (j : nat) :
    (j < N)%nat ->
    (forall i, (i < j)%nat -> pass_continues f L w E I delta eps a b i) ->
    pass_faults f L w E I delta a b j ->
    r = Some (Raise ZeroDivisionError) ->
    call_exit r
| Call_converged (j : nat) (s : locals) :
    (j < N)%nat ->
    (forall i, (i < j)%nat -> pass_continues f L w E I delta eps a b i) ->
    pass_converges f L w E I delta eps a b j ->
    r = Some (Ok {| returned := (est (S j), Z.of_nat (S j)); final := s |}) ->
    left_converged (S j) s ->
    call_exit r
| Call_capped (s : locals) :
    (forall i, (i < N)%nat -> pass_continues f L w E I delta eps a b i) ->
    r = Some (Ok {| returned := (est N, (Z.of_nat N + 1)%Z); final := s |}) ->
    left_capped s ->
    call_exit r.

Lemma midpoint_of_interval (k : nat) (s : locals) :
  (var_a s, var_b s) = iv k -> midpoint (var_a s) (var_b s) = est k.
Proof.
  intros H. rewrite estimate_after_interval. now rewrite <- H.
Qed.

Lemma bisection_iterations_exit (fuel : nat) :
  (N < fuel)%nat ->
  call_exit (bisection_iterations fuel f L w E I delta a b eps Nmax).
Proof.
  intros Hfuel. unfold bisection_iterations.
  destruct (while_true_exit fuel 0 (entry a b) entry_after_passes)
    as [j Hj Hall Hz Hr|j s Hj Hall Hc Hr Hs|s Hall Hr Hs]; try lia;
    rewrite Hr.
  - apply Call_fault with j.
    + lia.
    + intros i Hi; apply Hall; lia.
    + exact Hz.
    + reflexivity.
  - destruct Hs as (Hn & Hab & Hpr & Hcalls).
    apply Call_converged with j s.
    + lia.
    + intros i Hi; apply Hall; lia.
    + exact Hc.
    + now rewrite (midpoint_of_interval _ _ Hab), Hn.
    + repeat split; assumption.
  - destruct Hs as (Hn & Hab & Hpr & Hcalls).
    apply Call_capped with s.
    + intros i Hi; apply Hall; lia.
    + now rewrite (midpoint_of_interval _ _ Hab), Hn.
    + repeat split; assumption.
Qed.

(** The returned estimate is the midpoint of the final working interval,
    and the returned count is the final value of [n], however the call
    ends. *)
Lemma returned_from_final (fuel : nat) (out : outcome) :
  bisection_iterations fuel f L w E I delta a b eps Nmax = Some (Ok out) ->
  returned out = (midpoint (var_a (final out)) (var_b (final out)),
                  var_n (final out)).
Proof.
  unfold bisection_iterations.
  destruct (while_true fuel body (entry a b)) as [[s|e]|]; try discriminate.
  intros H; injection H as <-. reflexivity.
Qed.

(** A call left by [eps_r < eps] returns the number of calls of [bisect]
    it made; a call left by [n > Nmax] returns one more than that. *)
Lemma returned_count (fuel : nat) (out : outcome) :
  (N < fuel)%nat ->
  bisection_iterations fuel f L w E I delta a b eps Nmax = Some (Ok out) ->
  (printed (final out) = []
   /\ snd (returned out) = Z.of_nat (bisect_calls (final out)))
  \/ (printed (final out) = [cap_message]
      /\ snd (returned out) = (Z.of_nat (bisect_calls (final out)) + 1)%Z).
Proof.
  intros Hfuel Hout.
  destruct (bisection_iterations_exit fuel Hfuel)
    as [j Hj Hall Hz Hr|j s Hj Hall Hc Hr Hs|s Hall Hr Hs];
    rewrite Hr in Hout; try discriminate; injection Hout as <-; cbn.
  - left. destruct Hs as (_ & _ & Hpr & Hcalls). now rewrite Hpr, Hcalls.
  - right. destruct Hs as (_ & _ & Hpr & Hcalls). now rewrite Hpr, Hcalls.
Qed.

(** ** Claims that hold in every arithmetic *)

(** C1. One call of [bisect] on [(x, y)] computes the midpoint
    [m = (x+y)/2.0] and returns [(m, y)] when [sgn(f(x))] equals [sgn(f(m))]
    and [(x, m)] otherwise; a pass of the loop that is below the iteration
    cap and raises nothing replaces its working interval [(a, b)] by exactly
    that pair. *)
Theorem bisect_replaces_interval (x y : T) :
  let m := midpoint x y in
  let next :=
    if (sgn (f x L w E I delta) =? sgn (f m L w E I delta))%Z
    then (m, y) else (x, m) in
  bisect f x y L w E I delta = next
  /\ forall (s s' : locals) (c : flow),
       var_a s = x -> var_b s = y ->
       (var_n s + 1 <= Nmax)%Z ->
       body s = Ok (c, s') ->
       (var_a s', var_b s') = next.
Proof.
  intros m next. split; [reflexivity|].
  intros s s' c Hx Hy Hcap. unfold loop_body. cbv zeta.
  assert (Hg : (var_n s + 1 >? Nmax)%Z = false).
  { rewrite Z.gtb_ltb. apply Z.ltb_ge. exact Hcap. }
  rewrite Hg, Hx, Hy.
  change (bisect f x y L w E I delta) with next.
  destruct next as [a' b'].
  destruct (relative_error (midpoint a' b') (var_xr_old s)) as [e|e];
    cbn [bind]; [|discriminate].
  destruct (ltb e eps); intros H; injection H as _ <-; reflexivity.
Qed.

(** C2. In a pass below the iteration cap, after the interval is replaced
    the new midpoint [xr_new] is computed and, when it is not zero,
    [eps_r = |xr_new - xr_old| / |xr_new| * 100]; the loop is left at once,
    with the interval just computed and no further call of [bisect], when
    [eps_r < eps], and goes on to the next pass with [xr_old = xr_new]
    otherwise. *)
Theorem stopping_rule {AL : ArithLaws T} (s : locals) (fuel : nat) :
  (var_n s + 1 <= Nmax)%Z ->
  let '(a', b') := bisect f (var_a s) (var_b s) L w E I delta in
  let xr_new := midpoint a' b' in
  let eps_r :=
    mul (quot (absolute (sub xr_new (var_xr_old s))) (absolute xr_new))
        hundred in
  eqb xr_new zero = false ->
  while_true (S fuel) body s =
    if ltb eps_r eps then
      Some (Ok {| var_a := a'; var_b := b'; var_n := var_n s + 1;
                  var_xr_old := var_xr_old s; var_eps_r := eps_r;
                  printed := printed s;
                  bisect_calls := S (bisect_calls s) |})
    else
      while_true fuel body
        {| var_a := a'; var_b := b'; var_n := var_n s + 1;
           var_xr_old := xr_new; var_eps_r := eps_r;
           printed := printed s;
           bisect_calls := S (bisect_calls s) |}.
Proof.
  intros Hcap.
  assert (Hg : (var_n s + 1 >? Nmax)%Z = false).
  { rewrite Z.gtb_ltb. apply Z.ltb_ge. exact Hcap. }
  cbn [while_true]. unfold loop_body. cbv zeta. rewrite Hg.
  destruct (bisect f (var_a s) (var_b s) L w E I delta) as [a' b'].
  intros Hz. rewrite (relative_error_nonzero _ _ Hz), abs_quot.
  cbn [bind]. now destruct (ltb _ eps).
Qed.

(** C3. When none of the [Nmax] passes meets [eps_r < eps] (each computes
    its [eps_r] and goes on), the call still ends: pass [Nmax + 1] finds
    [n > Nmax], prints the one message and leaves the loop, and the call
    returns normally the midpoint of the interval reached after [Nmax]
    calls of [bisect] together with [n = Nmax + 1]. *)
Theorem cap_exhaustion_returns_unconverged (fuel : nat) :
  (0 <= Nmax)%Z ->
  (N < fuel)%nat ->
  (forall k, (k < N)%nat -> pass_continues f L w E I delta eps a b k) ->
  exists s : locals,
    bisection_iterations fuel f L w E I delta a b eps Nmax
    = Some (Ok {| returned := (est N, (Nmax + 1)%Z); final := s |})
    /\ (var_a s, var_b s) = iv N
    /\ printed s = [cap_message]
    /\ bisect_calls s = N.
Proof.
  intros Hpos Hfuel Hall.
  destruct (bisection_iterations_exit fuel Hfuel)
    as [j Hj _ Hz Hr|j s Hj _ Hc Hr Hs|s _ Hr Hs].
  - destruct (continues_not_faults j (Hall j Hj) Hz).
  - destruct (continues_not_converges j (Hall j Hj) Hc).
  - exists s. destruct Hs as (_ & Hab & Hpr & Hcalls).
    rewrite Hr. replace (Z.of_nat N) with Nmax by lia. auto.
Qed.

(** C6. When [f] is zero at the midpoint [m] of [(x, y)] and [f(x)] is a
    nonzero number (positive or negative), [sgn(f(m))] is [0] and differs
    from [sgn(f(x))], so [bisect] takes its [else] branch and returns the
    lower half [(x, m)]: an exact root at the midpoint is not detected. *)
Theorem exact_root_at_midpoint_keeps_lower_half {AL : ArithLaws T} (x y : T) :
  let m := midpoint x y in
  eqb (f m L w E I delta) zero = true ->
  ltb zero (f x L w E I delta) = true \/ ltb (f x L w E I delta) zero = true ->
  sgn (f m L w E I delta) = 0%Z
  /\ sgn (f x L w E I delta) <> sgn (f m L w E I delta)
  /\ bisect f x y L w E I delta = (x, m).
Proof.
  intros m Hm Hx.
  destruct (zero_unsigned _ Hm) as [Hm1 Hm2].
  assert (Hsm : sgn (f m L w E I delta) = 0%Z).
  { unfold sgn. now rewrite Hm1, Hm2. }
  assert (Hsx : sgn (f x L w E I delta) <> 0%Z).
  { unfold sgn. destruct Hx as [Hx|Hx].
    - now rewrite Hx.
    - rewrite Hx. now destruct (ltb zero (f x L w E I delta)). }
  repeat split; [exact Hsm|congruence|].
  unfold bisect. fold m. rewrite Hsm.
  apply Z.eqb_neq in Hsx. now rewrite Hsx.
Qed.

(** C7. With [Nmax >= 1]: if the relative error of the first pass,
    [|x1 - x0| / |x1| * 100] for the initial midpoint [x0] and the first
    new midpoint [x1], is below [eps], the call returns after exactly one
    pass, with count [1] and one call of [bisect]. *)
Theorem one_pass_when_epsilon_large {AL : ArithLaws T} (fuel : nat) :
  (1 <= Nmax)%Z ->
  (0 < fuel)%nat ->
  let x0 := midpoint a b in
  let x1 := est 1 in
  eqb x1 zero = false ->
  ltb (mul (quot (absolute (sub x1 x0)) (absolute x1)) hundred) eps = true ->
  exists s : locals,
    bisection_iterations fuel f L w E I delta a b eps Nmax
    = Some (Ok {| returned := (x1, 1%Z); final := s |})
    /\ bisect_calls s = 1%nat
    /\ printed s = [].
Proof.
  intros Hcap Hfuel x0 x1 Hz Hlt.
  assert (Hc : pass_converges f L w E I delta eps a b 0).
  { eexists. split; [apply (relative_error_nonzero _ _ Hz)|].
    rewrite abs_quot. exact Hlt. }
  destruct (pass_converge 0 (entry a b) entry_after_passes) as [s [Hb Hs]];
    [lia|exact Hc|].
  destruct Hs as (Hn & Hab & Hpr & Hcalls).
  exists s. destruct fuel as [|fuel]; [lia|].
  unfold bisection_iterations. cbn [while_true]. rewrite Hb.
  rewrite (midpoint_of_interval _ _ Hab), Hn. auto.
Qed.

(** C8. With enough fuel the call always ends; the only exception it can
    raise is the division by zero of the relative error, in a pass whose new
    midpoint is zero; and when no pass up to the cap has a zero midpoint,
    the call returns normally. *)
Theorem fault_only_by_zero_midpoint (fuel : nat) :
  (N < fuel)%nat ->
  (exists r : result outcome,
     bisection_iterations fuel f L w E I delta a b eps Nmax = Some r
     /\ forall e : exn, r = Raise e ->
          e = ZeroDivisionError
          /\ exists k, (k < N)%nat /\ eqb (est (S k)) zero = true)
  /\ ((forall k, (k < N)%nat -> eqb (est (S k)) zero = false) ->
      exists out : outcome,
        bisection_iterations fuel f L w E I delta a b eps Nmax
        = Some (Ok out)).
Proof.
  intros Hfuel.
  destruct (bisection_iterations_exit fuel Hfuel)
    as [j Hj _ Hz Hr|j s Hj _ Hc Hr Hs|s _ Hr Hs]; rewrite Hr; split.
  - eexists; split; [reflexivity|]. intros e _.
    split; [now destruct e|]. exists j. auto.
  - intros Hnz. unfold pass_faults in Hz. rewrite (Hnz j Hj) in Hz.
    discriminate.
  - eexists; split; [reflexivity|]. discriminate.
  - eauto.
  - eexists; split; [reflexivity|]. discriminate.
  - eauto.
Qed.

(** C10. The pair returned by [bisect] depends on the objective only
    through its values at the left endpoint and at the midpoint: two
    objectives that agree there give the same pair, whatever they return at
    the right endpoint. *)
Theorem bisect_ignores_right_endpoint (g : objective T) (x y : T) :
  f x L w E I delta = g x L w E I delta ->
  f (midpoint x y) L w E I delta = g (midpoint x y) L w E I delta ->
  bisect f x y L w E I delta = bisect g x y L w E I delta.
Proof.
  intros Hx Hm. unfold bisect. cbv zeta. now rewrite Hx, Hm.
Qed.

End Run.

(** ** The width of the interval, measured in the reals *)

Section Width.

Context {T : Type} {A : Arith T}.
Variable val : T -> R.
Variable f : objective T.
Variables L w E I delta : T.

(** In any arithmetic, with the numbers read as reals by [val]: one call of
    [bisect] halves the width exactly when the midpoint it computed is the
    exact midpoint. *)
Lemma bisect_halves_width_iff_midpoint_exact (a b : T) :
  let '(a', b') := bisect f a b L w E I delta in
  (val b' - val a' = (val b - val a) / 2)%R
  <-> (val (midpoint a b) = (val a + val b) / 2)%R.
Proof.
  unfold bisect. cbv zeta. destruct (Z.eqb _ _); split; lra.
Qed.

End Width.

Lemma powerRZ_2_neg (p : positive) :
  powerRZ 2 (Z.neg p) = (/ IZR (2 ^ Z.pos p))%R.
Proof. cbn [powerRZ]. rewrite pow_IZR. now rewrite positive_nat_Z. Qed.

(** ** Claims about the width and position of the interval

    These depend on the arithmetic: they hold for the reals, and binary64
    rounding and overflow break them (section [Binary64]). *)

Section ExactArithmetic.

Open Scope R_scope.

Variable f : objective R.
Variables L w E I delta : R.

Lemma midpoint_exact (a b : R) : midpoint a b = (a + b) / 2.
Proof. reflexivity. Qed.

Lemma bisect_exact_cases (a b : R) :
  bisect f a b L w E I delta = ((a + b) / 2, b)
  \/ bisect f a b L w E I delta = (a, (a + b) / 2).
Proof.
  unfold bisect. cbv zeta. rewrite midpoint_exact.
  destruct (Z.eqb _ _); [left|right]; reflexivity.
Qed.

Lemma bisect_exact_width (a b : R) :
  let '(a', b') := bisect f a b L w E I delta in b' - a' = (b - a) / 2.
Proof. destruct (bisect_exact_cases a b) as [-> | ->]; lra. Qed.

Lemma bisect_exact_nested (a b : R) :
  a <= b ->
  let '(a', b') := bisect f a b L w E I delta in a <= a' <= b' /\ b' <= b.
Proof. intros H. destruct (bisect_exact_cases a b) as [-> | ->]; lra. Qed.

Lemma interval_after_exact_nested (a b : R) (k : nat) :
  a <= b ->
  let '(a', b') := interval_after f L w E I delta k a b in
  a <= a' <= b' /\ b' <= b.
Proof.
  intros H. induction k as [|k IH]; cbn [interval_after]; [lra|].
  destruct (interval_after f L w E I delta k a b) as [a1 b1].
  assert (H1 : a1 <= b1) by lra.
  pose proof (bisect_exact_nested a1 b1 H1) as H2.
  destruct (bisect f a1 b1 L w E I delta) as [a2 b2]. lra.
Qed.

Lemma estimate_after_exact_within (a b : R) (k : nat) :
  a <= b -> a <= estimate_after f L w E I delta k a b <= b.
Proof.
  intros H. pose proof (interval_after_exact_nested a b k H) as Hk.
  unfold estimate_after.
  destruct (interval_after f L w E I delta k a b) as [a1 b1].
  rewrite midpoint_exact. lra.
Qed.

(** The source's [sgn] on a real is the sign of the real. *)
Lemma sgn_exact (x : R) :
  (0 < x -> sgn x = 1%Z) /\ (x < 0 -> sgn x = (-1)%Z) /\ (x = 0 -> sgn x = 0%Z).
Proof.
  unfold sgn; cbn [ltb zero reals]; unfold Rltb.
  repeat split; intros H;
    destruct (Rlt_dec 0 x); destruct (Rlt_dec x 0); try reflexivity; lra.
Qed.

(** A real is nonzero exactly when it is positive or negative. *)
Lemma nonzero_exact (x : R) :
  x <> 0 <-> ltb zero x = true \/ ltb x zero = true.
Proof.
  cbn [ltb zero reals]. rewrite !Rltb_true. split; intros H; [|lra].
  destruct (Rtotal_order 0 x) as [H1|[H1|H1]]; [now left|congruence|now right].
Qed.

(** On the reals an exact root at the midpoint, with [f(a)] nonzero, sends
    [bisect] to the lower half. *)
Lemma bisect_exact_root_at_midpoint (a b : R) :
  f ((a + b) / 2) L w E I delta = 0 -> f a L w E I delta <> 0 ->
  bisect f a b L w E I delta = (a, (a + b) / 2).
Proof.
  intros Hm Ha. unfold bisect. cbv zeta. rewrite midpoint_exact, Hm.
  destruct (sgn_exact 0) as (_ & _ & H0). rewrite (H0 eq_refl).
  destruct (sgn_exact (f a L w E I delta)) as (Hp & Hn & _).
  destruct (Rtotal_order 0 (f a L w E I delta)) as [H1|[H1|H1]];
    [rewrite (Hp H1)|congruence|rewrite (Hn H1)]; reflexivity.
Qed.

(** C5, amended to exact arithmetic. For every working interval [(a, b)]
    with [a < b] and every objective, the interval [(a', b')] returned by
    one call of [bisect] computed on the reals is exactly half as wide:
    [b' - a' = (b - a) / 2], in either branch. *)
Theorem bisect_halves_width_exact (a b : R) :
  a < b ->
  let '(a', b') := bisect f a b L w E I delta in b' - a' = (b - a) / 2.
Proof. intros _. apply bisect_exact_width. Qed.


End ExactArithmetic.

(** ** Runs in binary64 *)

Section Binary64.

Local Open Scope float_scope.

(** [lambda x,L,w,E,I,delta: x - delta], an objective with its root at
    [delta]. *)
Definition offset_line : objective float :=
  fun x _ _ _ _ delta => (x - delta)%float.

(** An objective that agrees with [offset_line] except at [x = 1.0]. *)
Definition offset_line_but_at_one : objective float :=
  fun x _ _ _ _ delta => if (x =? 1)%float then 100%float else (x - delta)%float.

(** [lambda x,L,w,E,I,delta: x*x - delta], with a root at the square root
    of [delta]. *)
Definition square_minus : objective float :=
  fun x _ _ _ _ delta => (x * x - delta)%float.

(** The notebook's call [bisection_iterations(f,L,w,E,I,delta,a,b,eps,Nmax)]:
    the model returns the value the notebook printed,
    [x = 0.16131913661956787], after 21 passes. *)
Example notebook_run :
  exists s : locals,
    bisection_iterations 101%nat Notebook.f Notebook.L Notebook.w Notebook.E
      Notebook.I Notebook.delta Notebook.a Notebook.b Notebook.eps
      Notebook.Nmax
    = Some (Ok {| returned := (0x1.4a61bp-3, 21%Z); final := s |})
    /\ bisect_calls s = 21%nat /\ printed s = [].
Proof. vm_compute. eexists. repeat split. Qed.

(** The specification's scenario [f(x) = x^2 - 2] on [(0, 2)] with
    [eps = 1e-6] and [Nmax = 100]: the estimate is within [1e-8] of
    [1.41421356]. *)
Example square_root_of_two_run :
  exists (x : float) (s : locals),
    bisection_iterations 101%nat square_minus 0 0 0 0 2
      0 2 0x1.0c6f7a0b5ed8dp-20 100%Z
    = Some (Ok {| returned := (x, 27%Z); final := s |})
    /\ (0x1.6a09e632cf602p+0 <? x) = true    (* 1.41421355 < x *)
    /\ (x <? 0x1.6a09e688b59bbp+0) = true.   (* x < 1.41421357 *)
Proof. vm_compute. do 2 eexists. repeat split. Qed.

(** A NaN is neither positive nor negative: its [sgn] is [0]. *)
Example sgn_nan : sgn nan = 0%Z.
Proof. reflexivity. Qed.

(** C4 (the code departs from the claim). On [a = 0.0], [b = 1.0],
    [delta = 0.375], [eps = 1.0], [Nmax = 2] with the objective
    [x - delta], two passes call [bisect] (relative errors 100 and 33.3);
    the third finds [n = 3 > Nmax], prints and leaves.  The call returns the
    count [3] although [bisect] was called twice. *)
Example cap_exit_returns_count_of_unperformed_pass :
  exists s : locals,
    bisection_iterations 4%nat offset_line 0 0 0 0 0.375 0 1 1 2%Z
    = Some (Ok {| returned := (0.375%float, 3%Z); final := s |})
    /\ bisect_calls s = 2%nat
    /\ printed s = [cap_message].
Proof. vm_compute. eexists. repeat split. Qed.

(** C5 fails in binary64. The adjacent floats [a = 1.414213562373095] and
    [b = 1.4142135623730951] bracket the root of [x*x - 2] with a sign
    change.  The sum [a + b] rounds to [2a], the midpoint is [a], and
    [bisect] returns [(a, b)] again: the width stays [2^-52] instead of
    becoming [2^-53], whether the widths are computed in binary64 or in the
    reals. *)
Lemma bisect_width_not_halved_binary64 :
  let a := 0x1.6a09e667f3bccp+0%float in
  let b := 0x1.6a09e667f3bcdp+0%float in
  ltb a b = true
  /\ sgn (square_minus a 0 0 0 0 2) <> sgn (square_minus b 0 0 0 0 2)
  /\ (let '(a', b') := bisect square_minus a b 0 0 0 0 2 in
      (a', b') = (a, b)
      /\ sub b' a' = 0x1p-52%float
      /\ quot (sub b a) two = 0x1p-53%float
      /\ sub b' a' <> quot (sub b a) two
      /\ (binary64_value b' - binary64_value a'
          <> (binary64_value b - binary64_value a) / 2)%R).
Proof.
  vm_compute bisect. vm_compute sgn. cbv zeta. repeat split.
  - discriminate.
  - intros H. apply (f_equal (fun z => PrimFloat.eqb z 0x1p-52)) in H.
    vm_compute in H. discriminate H.
  - unfold binary64_value.
    replace (Prim2SF 0x1.6a09e667f3bccp+0)
      with (S754_finite false 6369051672525772 (-52))
      by (vm_compute; reflexivity).
    replace (Prim2SF 0x1.6a09e667f3bcdp+0)
      with (S754_finite false 6369051672525773 (-52))
      by (vm_compute; reflexivity).
    unfold SF2R. rewrite powerRZ_2_neg.
    change (2 ^ 52)%Z with 4503599627370496%Z. lra.
Qed.


(** *** The claims at concrete binary64 inputs *)

Lemma bisect_replaces_interval_witness :
  bisect offset_line 0 1 0 0 0 0 0.375 = (0, 0.5)
  /\ match loop_body offset_line 0 0 0 0 0.375 1 2%Z (entry 0 1) with
     | Ok (_, s') => (var_a s', var_b s') = (0, 0.5)
     | Raise _ => False
     end.
Proof.
  destruct (bisect_replaces_interval offset_line 0 0 0 0 0.375 1 2%Z 0 1)
    as [H1 H2].
  split; [exact H1|].
  destruct (loop_body offset_line 0 0 0 0 0.375 1 2%Z (entry 0 1))
    as [[c s']|e] eqn:Hb.
  - refine (H2 (entry 0 1) s' c _ _ _ Hb); [reflexivity|reflexivity|cbn; lia].
  - vm_compute in Hb. discriminate Hb.
Defined.

Lemma stopping_rule_witness :
  while_true 1 (loop_body offset_line 0 0 0 0 0.375 200 2%Z) (entry 0 1)
  = Some (Ok {| var_a := 0; var_b := 0.5; var_n := 1;
                var_xr_old := 0.5; var_eps_r := 100;
                printed := []; bisect_calls := 1 |}).
Proof.
  pose proof (stopping_rule offset_line 0 0 0 0 0.375 200 2%Z (entry 0 1) 0)
    as H.
  specialize (H ltac:(cbn; lia)). vm_compute in H. exact (H eq_refl).
Defined.

Lemma offset_line_two_passes_continue (k : nat) :
  (k < Z.to_nat 2)%nat -> pass_continues offset_line 0 0 0 0 0.375 1 0 1 k.
Proof.
  intros Hk. destruct k as [|[|k]]; [| |cbn in Hk; lia];
    eexists; split; vm_compute; reflexivity.
Qed.

Lemma cap_exhaustion_returns_unconverged_witness :
  exists s : locals,
    bisection_iterations 3%nat offset_line 0 0 0 0 0.375 0 1 1 2%Z
    = Some (Ok {| returned := (0.375, 3%Z); final := s |})
    /\ (var_a s, var_b s) = (0.25, 0.5)
    /\ printed s = [cap_message]
    /\ bisect_calls s = 2%nat.
Proof.
  exact (cap_exhaustion_returns_unconverged offset_line 0 0 0 0 0.375 1 2%Z
           0 1 3%nat ltac:(lia) ltac:(cbn; lia)
           offset_line_two_passes_continue).
Defined.

Lemma exact_root_at_midpoint_keeps_lower_half_witness :
  sgn (offset_line 0.375 0 0 0 0 0.375) = 0%Z
  /\ sgn (offset_line 0.25 0 0 0 0 0.375) <> sgn (offset_line 0.375 0 0 0 0 0.375)
  /\ bisect offset_line 0.25 0.5 0 0 0 0 0.375 = (0.25, 0.375).
Proof.
  exact (exact_root_at_midpoint_keeps_lower_half offset_line 0 0 0 0 0.375
           0.25 0.5 eq_refl (or_intror eq_refl)).
Defined.

Lemma one_pass_when_epsilon_large_witness :
  exists s : locals,
    bisection_iterations 1%nat offset_line 0 0 0 0 0.375 0 1 200 2%Z
    = Some (Ok {| returned := (0.25, 1%Z); final := s |})
    /\ bisect_calls s = 1%nat
    /\ printed s = [].
Proof.
  exact (one_pass_when_epsilon_large offset_line 0 0 0 0 0.375 200 2%Z 0 1
           1%nat ltac:(lia) ltac:(lia) eq_refl eq_refl).
Defined.

Lemma offset_line_two_midpoints_nonzero (k : nat) :
  (k < Z.to_nat 2)%nat ->
  eqb (estimate_after offset_line 0 0 0 0 0.375 (S k) 0 1) zero = false.
Proof.
  intros Hk. destruct k as [|[|k]]; [| |cbn in Hk; lia]; reflexivity.
Qed.

Lemma fault_only_by_zero_midpoint_witness :
  exists out : outcome,
    bisection_iterations 3%nat offset_line 0 0 0 0 0.375 0 1 1 2%Z
    = Some (Ok out).
Proof.
  exact (proj2 (fault_only_by_zero_midpoint offset_line 0 0 0 0 0.375 1 2%Z
                  0 1 3%nat ltac:(cbn; lia))
           offset_line_two_midpoints_nonzero).
Defined.

Lemma bisect_ignores_right_endpoint_witness :
  PrimFloat.eqb (offset_line 1 0 0 0 0 0.375)
                (offset_line_but_at_one 1 0 0 0 0 0.375) = false
  /\ bisect offset_line 0 1 0 0 0 0 0.375
     = bisect offset_line_but_at_one 0 1 0 0 0 0 0.375.
Proof.
  split; [reflexivity|].
  exact (bisect_ignores_right_endpoint offset_line 0 0 0 0 0.375
           offset_line_but_at_one 0 1 eq_refl eq_refl).
Defined.

End Binary64.

(** *** The exact claims at concrete reals *)

Section ExactRuns.

Local Open Scope R_scope.

Lemma bisect_halves_width_exact_witness :
  let '(a', b') := bisect (T := R) (fun x _ _ _ _ _ => x) 0 1 0 0 0 0 0 in
  (b' - a' = (1 - 0) / 2)%R.
Proof.
  exact (bisect_halves_width_exact (fun x _ _ _ _ _ => x) 0 0 0 0 0 0 1
           ltac:(lra)).
Defined.


End ExactRuns.

(** * Further properties of the notebook's functions *)

(** ** The bracket, the count and the edges of the loop, in every
    arithmetic *)

Section Bracket.

Context {T : Type} {A : Arith T}.
Variable f : objective T.
Variables L w E I delta eps : T.
Variable Nmax : Z.
Variables a b : T.

Local Abbreviation sign_at x := (sgn (f x L w E I delta)).
Local Abbreviation N := (Z.to_nat Nmax).

(** [bisect] keeps a bracket a bracket: the sign of [f] at the left
    endpoint never changes, and endpoints whose signs differ are replaced by
    endpoints whose signs differ. *)
Theorem bisect_keeps_bracket (x y : T) :
  sign_at x <> sign_at y ->
  let '(x', y') := bisect f x y L w E I delta in
  sign_at x' = sign_at x /\ sign_at x' <> sign_at y'.
Proof.
  intros Hxy. unfold bisect. cbv zeta.
  destruct (Z.eqb_spec (sign_at x) (sign_at (midpoint x y))) as [Heq|Hne].
  - split; congruence.
  - split; [reflexivity|exact Hne].
Qed.

Lemma interval_after_keeps_bracket (k : nat) :
  sign_at a <> sign_at b ->
  let '(x, y) := interval_after f L w E I delta k a b in
  sign_at x = sign_at a /\ sign_at x <> sign_at y.
Proof.
  intros Hab. induction k as [|k IH]; cbn [interval_after].
  - split; [reflexivity|exact Hab].
  - destruct (interval_after f L w E I delta k a b) as [x y].
    destruct IH as [IH1 IH2].
    pose proof (bisect_keeps_bracket x y IH2) as H.
    destruct (bisect f x y L w E I delta) as [x' y'].
    destruct H as [H1 H2]. split; congruence.
Qed.

(** The interval a returning call ends with is one of the intervals
    [interval_after k]. *)
Lemma final_interval_is_iterate (fuel : nat) (out : outcome) :
  (N < fuel)%nat ->
  bisection_iterations fuel f L w E I delta a b eps Nmax = Some (Ok out) ->
  exists k : nat,
    (k <= N)%nat
    /\ (var_a (final out), var_b (final out))
       = interval_after f L w E I delta k a b
    /\ fst (returned out) = estimate_after f L w E I delta k a b
    /\ bisect_calls (final out) = k
    /\ (Z.of_nat k <= snd (returned out) <= Z.of_nat k + 1)%Z.
Proof.
  intros Hfuel Hout.
  destruct (bisection_iterations_exit f L w E I delta eps Nmax a b fuel Hfuel)
    as [j Hj _ Hz Hr|j s Hj _ Hc Hr Hs|s _ Hr Hs];
    rewrite Hr in Hout; try discriminate; injection Hout as <-;
    cbn [final returned fst snd].
  - destruct Hs as (_ & Hab & _ & Hcalls). exists (S j).
    repeat split; auto; lia.
  - destruct Hs as (_ & Hab & _ & Hcalls). exists N.
    repeat split; auto; lia.
Qed.

(** Called on a bracket (the signs of [f] at [a] and [b] differ), a call
    that returns leaves a working interval that is still a bracket, with the
    sign of [f] at its left endpoint the one at [a]. *)
Theorem returned_interval_is_bracket (fuel : nat) (out : outcome) :
  sign_at a <> sign_at b ->
  (N < fuel)%nat ->
  bisection_iterations fuel f L w E I delta a b eps Nmax = Some (Ok out) ->
  sign_at (var_a (final out)) = sign_at a
  /\ sign_at (var_a (final out)) <> sign_at (var_b (final out)).
Proof.
  intros Hab Hfuel Hout.
  destruct (final_interval_is_iterate fuel out Hfuel Hout)
    as (k & _ & Hk & _).
  pose proof (interval_after_keeps_bracket k Hab) as H.
  rewrite <- Hk in H. exact H.
Qed.

(** The returned count tells how the loop was left.  With [Nmax >= 0], a
    call that returns either printed nothing, made [n] calls of [bisect]
    and returns [1 <= n <= Nmax], or printed the message once, made [Nmax]
    calls of [bisect] and returns [n = Nmax + 1].  So [bisect] is never
    called more than [Nmax] times, and [n > Nmax] exactly when the cap was
    hit. *)
Theorem count_tells_exit (fuel : nat) (out : outcome) :
  (0 <= Nmax)%Z ->
  (N < fuel)%nat ->
  bisection_iterations fuel f L w E I delta a b eps Nmax = Some (Ok out) ->
  (printed (final out) = []
   /\ (1 <= snd (returned out) <= Nmax)%Z
   /\ Z.of_nat (bisect_calls (final out)) = snd (returned out))
  \/ (printed (final out) = [cap_message]
      /\ snd (returned out) = (Nmax + 1)%Z
      /\ Z.of_nat (bisect_calls (final out)) = Nmax).
Proof.
  intros Hpos Hfuel Hout.
  destruct (bisection_iterations_exit f L w E I delta eps Nmax a b fuel Hfuel)
    as [j Hj _ Hz Hr|j s Hj _ Hc Hr Hs|s _ Hr Hs];
    rewrite Hr in Hout; try discriminate; injection Hout as <-;
    cbn [final returned snd].
  - left. destruct Hs as (_ & _ & Hpr & Hcalls). rewrite Hpr, Hcalls.
    repeat split; lia.
  - right. destruct Hs as (_ & _ & Hpr & Hcalls). rewrite Hpr, Hcalls.
    repeat split; lia.
Qed.

(** A call that returns without the message met the tolerance in its last
    pass: the relative error between the returned estimate and the midpoint
    before it was computed and is below [eps]. *)
Theorem silent_return_met_tolerance (fuel : nat) (out : outcome) :
  (N < fuel)%nat ->
  bisection_iterations fuel f L w E I delta a b eps Nmax = Some (Ok out) ->
  printed (final out) = [] ->
  exists (k : nat) (e : T),
    returned out
    = (estimate_after f L w E I delta (S k) a b, Z.of_nat (S k))
    /\ relative_error (estimate_after f L w E I delta (S k) a b)
                      (estimate_after f L w E I delta k a b) = Ok e
    /\ ltb e eps = true.
Proof.
  intros Hfuel Hout Hpr.
  destruct (bisection_iterations_exit f L w E I delta eps Nmax a b fuel Hfuel)
    as [j Hj _ Hz Hr|j s Hj _ Hc Hr Hs|s _ Hr Hs];
    rewrite Hr in Hout; try discriminate; injection Hout as <-;
    cbn [final returned] in *.
  - destruct Hc as [e [He Hlt]]. exists j, e. auto.
  - destruct Hs as (_ & _ & Hpr' & _). rewrite Hpr' in Hpr. discriminate.
Qed.

(** With [Nmax <= 0] the first pass already finds [n > Nmax]: the call
    prints the message and returns the midpoint of [(a, b)] with count [1],
    without calling [bisect] or the objective, and cannot raise. *)
Theorem no_pass_when_cap_not_positive (fuel : nat) :
  (Nmax <= 0)%Z ->
  (0 < fuel)%nat ->
  bisection_iterations fuel f L w E I delta a b eps Nmax
  = Some (Ok {| returned := (midpoint a b, 1%Z);
                final := {| var_a := a; var_b := b; var_n := 1;
                            var_xr_old := midpoint a b; var_eps_r := zero;
                            printed := [cap_message];
                            bisect_calls := 0 |} |}).
Proof.
  intros Hcap Hfuel. destruct fuel as [|fuel]; [lia|].
  unfold bisection_iterations. cbn [while_true].
  unfold loop_body. cbv zeta. cbn [entry var_n var_a var_b var_xr_old
                                   var_eps_r printed bisect_calls].
  assert (Hg : (0 + 1 >? Nmax)%Z = true) by (rewrite Z.gtb_ltb, Z.ltb_lt; lia).
  rewrite Hg. reflexivity.
Qed.

End Bracket.

(** ** A tolerance that is not positive *)

(** [abs(q)*100] is never below a tolerance that is not positive
    ([eps <= 0], or a NaN); both readings of the arithmetic satisfy it. *)
Class ToleranceLaws (T : Type) {A : Arith T} : Prop := {
  scaled_abs_not_below : forall q eps : T,
    ltb zero eps = false -> ltb (mul (absolute q) hundred) eps = false
}.

Arguments ToleranceLaws T {A}.

(** A binary64 value that is not negative: its sign bit is clear, or it is
    a NaN. *)
Definition SFnonneg (x : spec_float) : Prop :=
  match x with
  | S754_zero s | S754_infinity s | S754_finite s _ _ => s = false
  | S754_nan => True
  end.

Lemma binary_round_aux_sign (s : bool) (m e : Z) (l : location) :
  match binary_round_aux prec emax s m e l with
  | S754_zero s' | S754_infinity s' | S754_finite s' _ _ => s' = s
  | S754_nan => True
  end.
Proof.
  unfold binary_round_aux.
  destruct (shr_fexp prec emax m e l) as [mrs' e'].
  destruct (shr_fexp prec emax _ e' _) as [mrs'' e''].
  destruct (shr_m mrs''); try reflexivity.
  destruct (Z.leb _ _); reflexivity.
Qed.

Lemma SFmul_abs_nonneg (x : spec_float) (m : positive) (e : Z) :
  SFnonneg (SF64mul (SFabs x) (S754_finite false m e)).
Proof.
  destruct x as [s|s| |s mx ex]; cbn; try reflexivity.
  pose proof (binary_round_aux_sign false (Z.pos (mx * m)) (ex + e) loc_Exact)
    as H.
  unfold SFnonneg.
  destruct (binary_round_aux prec emax false (Z.pos (mx * m)) (ex + e)
              loc_Exact); auto.
Qed.

Lemma SFltb_nonneg (x y : spec_float) :
  SFnonneg x -> SFltb (S754_zero false) y = false -> SFltb x y = false.
Proof.
  destruct x as [s|s| |s m e], y as [t|t| |t n g]; cbn; intros Hx Hy;
    try subst s; try destruct t; try discriminate; try reflexivity.
Qed.

Lemma binary64_scaled_abs_not_below (q eps : float) :
  PrimFloat.ltb 0 eps = false ->
  PrimFloat.ltb (PrimFloat.abs q * 100) eps = false.
Proof.
  rewrite !ltb_spec, mul_spec, abs_spec.
  change (Prim2SF 0) with (S754_zero false).
  replace (Prim2SF 100) with (S754_finite false 7036874417766400 (-46))
    by (vm_compute; reflexivity).
  intros H. apply SFltb_nonneg; [apply SFmul_abs_nonneg|exact H].
Qed.

#[export] Instance binary64_tolerance_laws : ToleranceLaws float.
Proof. split. exact binary64_scaled_abs_not_below. Qed.

#[export] Instance reals_tolerance_laws : ToleranceLaws R.
Proof.
  split. cbn. intros q eps H. apply Rltb_false in H. apply Rltb_false.
  pose proof (Rabs_pos q). nra.
Qed.

Section Tolerance.

Context {T : Type} {A : Arith T} {TL : ToleranceLaws T}.
Variable f : objective T.
Variables L w E I delta eps : T.
Variable Nmax : Z.
Variables a b : T.

(** With a tolerance that is not positive ([0 < eps] is false: [eps <= 0]
    or NaN) no pass can meet [eps_r < eps]: a call that returns always ran
    all [Nmax] passes, printed the message and returns the count of the cap
    exit. *)
Theorem tolerance_not_positive_never_met (fuel : nat) (out : outcome) :
  ltb zero eps = false ->
  (Z.to_nat Nmax < fuel)%nat ->
  bisection_iterations fuel f L w E I delta a b eps Nmax = Some (Ok out) ->
  printed (final out) = [cap_message]
  /\ snd (returned out) = (Z.of_nat (Z.to_nat Nmax) + 1)%Z
  /\ bisect_calls (final out) = Z.to_nat Nmax.
Proof.
  intros Heps Hfuel Hout.
  destruct (bisection_iterations_exit f L w E I delta eps Nmax a b fuel Hfuel)
    as [j Hj _ Hz Hr|j s Hj _ Hc Hr Hs|s _ Hr Hs];
    rewrite Hr in Hout; try discriminate; injection Hout as <-;
    cbn [final returned snd].
  - destruct Hc as [e [He Hlt]].
    pose proof (relative_error_defined _ _ _ He) as Hnz.
    rewrite (relative_error_nonzero _ _ Hnz) in He. injection He as <-.
    rewrite (scaled_abs_not_below _ _ Heps) in Hlt. discriminate.
  - destruct Hs as (_ & _ & Hpr & Hcalls). auto.
Qed.

End Tolerance.

(** ** [sgn] in binary64 *)

(** [sgn(x)] is [0] exactly when [x == 0] (either zero) or [x] is a NaN
    ([x != x]); for every other float it is [1] or [-1] according to
    [x > 0] or [x < 0]. *)
Theorem binary64_sgn_zero_or_nan (x : float) :
  (sgn x = 0%Z <-> PrimFloat.eqb x 0 = true \/ PrimFloat.eqb x x = false)
  /\ (sgn x = 1%Z <-> PrimFloat.ltb 0 x = true)
  /\ (sgn x = (-1)%Z <-> PrimFloat.ltb x 0 = true).
Proof.
  unfold sgn. cbn [ltb zero binary64].
  rewrite !eqb_spec, !ltb_spec.
  change (Prim2SF 0) with (S754_zero false).
  destruct (Prim2SF x) as [s|s| |s m e]; try destruct s; cbn;
    rewrite ?Z.compare_refl, ?Pos.compare_cont_refl; cbn;
    repeat split; intros H; try discriminate; try reflexivity;
    try (destruct H; discriminate); auto.
Qed.

(** *** The properties above at concrete binary64 inputs *)

Section Binary64Runs.

Local Open Scope float_scope.

(** What [bisection_iterations(f,0,0,0,0,0.375,0.0,1.0,200,2)] leaves, for
    [f = x - delta]: convergence in the first pass. *)
Definition converged_outcome : outcome (T := float) :=
  {| returned := (0.25, 1%Z);
     final := {| var_a := 0; var_b := 0.5; var_n := 1; var_xr_old := 0.5;
                 var_eps_r := 100; printed := [];
                 bisect_calls := 1 |} |}.

(** What the same call leaves with [eps = 1.0] (or [eps = 0.0]): the cap is
    hit after two passes. *)
Definition capped_outcome : outcome (T := float) :=
  {| returned := (0.375, 3%Z);
     final := {| var_a := 0.25; var_b := 0.5; var_n := 3;
                 var_xr_old := 0.375; var_eps_r := 0x1.0aaaaaaaaaaaap+5;
                 printed := [cap_message];
                 bisect_calls := 2 |} |}.

Lemma converged_outcome_run :
  bisection_iterations 3%nat offset_line 0 0 0 0 0.375 0 1 200 2%Z
  = Some (Ok converged_outcome).
Proof. vm_compute. reflexivity. Qed.

Lemma capped_outcome_run :
  bisection_iterations 3%nat offset_line 0 0 0 0 0.375 0 1 1 2%Z
  = Some (Ok capped_outcome).
Proof. vm_compute. reflexivity. Qed.

Lemma capped_outcome_run_zero_tolerance :
  bisection_iterations 3%nat offset_line 0 0 0 0 0.375 0 1 0 2%Z
  = Some (Ok capped_outcome).
Proof. vm_compute. reflexivity. Qed.

Lemma offset_line_bracket :
  sgn (offset_line 0 0 0 0 0 0.375) <> sgn (offset_line 1 0 0 0 0 0.375).
Proof. vm_compute. discriminate. Qed.

Lemma bisect_keeps_bracket_witness :
  let '(x', y') := bisect offset_line 0 1 0 0 0 0 0.375 in
  sgn (offset_line x' 0 0 0 0 0.375) = sgn (offset_line 0 0 0 0 0 0.375)
  /\ sgn (offset_line x' 0 0 0 0 0.375) <> sgn (offset_line y' 0 0 0 0 0.375).
Proof.
  exact (bisect_keeps_bracket offset_line 0 0 0 0 0.375 0 1
           offset_line_bracket).
Defined.

Lemma returned_interval_is_bracket_witness :
  sgn (offset_line (var_a (final capped_outcome)) 0 0 0 0 0.375)
  = sgn (offset_line 0 0 0 0 0 0.375)
  /\ sgn (offset_line (var_a (final capped_outcome)) 0 0 0 0 0.375)
     <> sgn (offset_line (var_b (final capped_outcome)) 0 0 0 0 0.375).
Proof.
  exact (returned_interval_is_bracket offset_line 0 0 0 0 0.375 1 2%Z 0 1
           3%nat capped_outcome offset_line_bracket ltac:(cbn; lia)
           capped_outcome_run).
Defined.

Lemma count_tells_exit_witness :
  (printed (final capped_outcome) = []
   /\ (1 <= snd (returned capped_outcome) <= 2)%Z
   /\ Z.of_nat (bisect_calls (final capped_outcome))
      = snd (returned capped_outcome))
  \/ (printed (final capped_outcome) = [cap_message]
      /\ snd (returned capped_outcome) = (2 + 1)%Z
      /\ Z.of_nat (bisect_calls (final capped_outcome)) = 2%Z).
Proof.
  exact (count_tells_exit offset_line 0 0 0 0 0.375 1 2%Z 0 1 3%nat
           capped_outcome ltac:(lia) ltac:(cbn; lia) capped_outcome_run).
Defined.

Lemma silent_return_met_tolerance_witness :
  exists (k : nat) (e : float),
    returned converged_outcome
    = (estimate_after offset_line 0 0 0 0 0.375 (S k) 0 1, Z.of_nat (S k))
    /\ relative_error (estimate_after offset_line 0 0 0 0 0.375 (S k) 0 1)
                      (estimate_after offset_line 0 0 0 0 0.375 k 0 1) = Ok e
    /\ ltb e 200 = true.
Proof.
  exact (silent_return_met_tolerance offset_line 0 0 0 0 0.375 200 2%Z 0 1
           3%nat converged_outcome ltac:(cbn; lia) converged_outcome_run
           eq_refl).
Defined.

Lemma no_pass_when_cap_not_positive_witness :
  bisection_iterations 1%nat offset_line 0 0 0 0 0.375 0 1 1 0%Z
  = Some (Ok {| returned := (0.5, 1%Z);
                final := {| var_a := 0; var_b := 1; var_n := 1;
                            var_xr_old := 0.5; var_eps_r := 0;
                            printed := [cap_message];
                            bisect_calls := 0 |} |}).
Proof.
  exact (no_pass_when_cap_not_positive offset_line 0 0 0 0 0.375 1 0%Z 0 1
           1%nat ltac:(lia) ltac:(lia)).
Defined.

Lemma tolerance_not_positive_never_met_witness :
  printed (final capped_outcome) = [cap_message]
  /\ snd (returned capped_outcome) = (Z.of_nat (Z.to_nat 2) + 1)%Z
  /\ bisect_calls (final capped_outcome) = Z.to_nat 2.
Proof.
  exact (tolerance_not_positive_never_met offset_line 0 0 0 0 0.375 0 2%Z
           0 1 3%nat capped_outcome eq_refl ltac:(cbn; lia)
           capped_outcome_run_zero_tolerance).
Defined.

End Binary64Runs.

(** ** Bisection on the reals: width, enclosed root, convergence *)

Lemma bisection_iterations_ends {T : Type} {A : Arith T} (f : objective T)
    (L w E I delta a b eps : T) (Nmax : Z) (fuel : nat) :
  (Z.to_nat Nmax < fuel)%nat ->
  exists r : result outcome,
    bisection_iterations fuel f L w E I delta a b eps Nmax = Some r.
Proof.
  intros Hfuel.
  destruct (bisection_iterations_exit f L w E I delta eps Nmax a b fuel Hfuel)
    as [j _ _ _ Hr|j s _ _ _ Hr _|s _ Hr _]; rewrite Hr; eauto.
Qed.

Section ExactBisection.

Open Scope R_scope.

Variable f : objective R.
Variables L w E I delta : R.

Local Abbreviation g x := (f x L w E I delta).
Local Abbreviation iv k a b := (interval_after f L w E I delta k a b).
Local Abbreviation est k a b := (estimate_after f L w E I delta k a b).

Lemma sgn_differ_product (u v : R) : sgn u <> sgn v -> u * v <= 0.
Proof.
  intros H.
  destruct (sgn_exact u) as (Hu1 & Hu2 & Hu3).
  destruct (sgn_exact v) as (Hv1 & Hv2 & Hv3).
  destruct (Rtotal_order 0 u) as [Hu|[Hu|Hu]];
    destruct (Rtotal_order 0 v) as [Hv|[Hv|Hv]]; try nra.
  - rewrite (Hu1 Hu), (Hv1 Hv) in H. congruence.
  - rewrite (Hu2 Hu), (Hv2 Hv) in H. congruence.
Qed.

(** On the reals, after [k] calls of [bisect] the working interval is
    [(b - a) / 2^k] wide. *)
Theorem interval_after_exact_width (a b : R) (k : nat) :
  let '(x, y) := iv k a b in y - x = (b - a) / 2 ^ k.
Proof.
  induction k as [|k IH]; cbn [interval_after]; [cbn; lra|].
  destruct (iv k a b) as [x y].
  pose proof (bisect_exact_width f L w E I delta x y) as H.
  destruct (bisect f x y L w E I delta) as [x' y'].
  rewrite H, IH. cbn [pow]. field. apply pow_nonzero. lra.
Qed.

Hypothesis f_continuous : continuity (fun x => g x).

(** On the reals, for a continuous objective and a bracket [a <= b] with
    different signs of [f] at its ends, every working interval contains a
    root of [f]. *)
Theorem bracket_encloses_root (a b : R) (k : nat) :
  a <= b ->
  sgn (g a) <> sgn (g b) ->
  let '(x, y) := iv k a b in
  exists z : R, x <= z <= y /\ g z = 0.
Proof.
  intros Hab Hsgn.
  pose proof (interval_after_keeps_bracket f L w E I delta a b k Hsgn) as Hk.
  pose proof (interval_after_exact_nested f L w E I delta a b k Hab) as Hn.
  destruct (iv k a b) as [x y]. destruct Hk as [_ Hk].
  assert (Hxy : x <= y) by lra.
  destruct (IVT_cor (fun x => g x) x y f_continuous Hxy
              (sgn_differ_product _ _ Hk)) as [z [Hz1 Hz2]].
  exists z. split; assumption.
Qed.

(** On the reals, for a continuous objective and a bracket with different
    signs at its ends, the call ends, and an estimate it returns with count
    [n] is within [(b - a) / 2^n] of a root of [f] that lies in
    [[a, b]]. *)
Theorem returned_estimate_near_root (a b eps : R) (Nmax : Z) (fuel : nat) :
  a <= b ->
  sgn (g a) <> sgn (g b) ->
  (Z.to_nat Nmax < fuel)%nat ->
  exists r : result outcome,
    bisection_iterations fuel f L w E I delta a b eps Nmax = Some r
    /\ forall out : outcome,
         r = Ok out ->
         exists z : R,
           a <= z <= b /\ g z = 0
           /\ Rabs (fst (returned out) - z)
              <= (b - a) / 2 ^ Z.to_nat (snd (returned out)).
Proof.
  intros Hab Hsgn Hfuel.
  destruct (bisection_iterations_ends f L w E I delta a b eps Nmax fuel Hfuel)
    as [r Hr].
  exists r. split; [exact Hr|]. intros out ->.
  destruct (final_interval_is_iterate f L w E I delta eps Nmax a b fuel out
              Hfuel Hr) as (k & _ & Hiv & Hest & _ & Hn).
  pose proof (bracket_encloses_root a b k Hab Hsgn) as Hroot.
  pose proof (interval_after_exact_width a b k) as Hw.
  pose proof (interval_after_exact_nested f L w E I delta a b k Hab) as Hnest.
  rewrite Hest. unfold estimate_after.
  destruct (iv k a b) as [x y]. destruct Hroot as [z [Hz Hgz]].
  exists z. repeat split; try lra; try exact Hgz.
  rewrite midpoint_exact.
  assert (H2k : 0 < 2 ^ k) by (apply pow_lt; lra).
  assert (Hhalf : Rabs ((x + y) / 2 - z) <= (b - a) / 2 ^ S k).
  { cbn [pow]. replace ((b - a) / (2 * 2 ^ k)) with ((y - x) / 2)
      by (rewrite Hw; field; lra).
    apply Rabs_le. lra. }
  eapply Rle_trans; [exact Hhalf|].
  set (n := Z.to_nat (snd (returned out))).
  assert (Hle : (n <= S k)%nat) by (unfold n; lia).
  assert (Hpow : 2 ^ n <= 2 ^ S k) by (apply Rle_pow; [lra|exact Hle]).
  assert (H2n : 0 < 2 ^ n) by (apply pow_lt; lra).
  assert (H2s : 0 < 2 ^ S k) by (apply pow_lt; lra).
  unfold Rdiv. apply Rmult_le_compat_l; [lra|].
  apply Rinv_le_contravar; assumption.
Qed.

End ExactBisection.

Section ExactConvergence.

Open Scope R_scope.

Variable f : objective R.
Variables L w E I delta : R.

Local Abbreviation iv k a b := (interval_after f L w E I delta k a b).
Local Abbreviation est k a b := (estimate_after f L w E I delta k a b).

(** On the reals, successive estimates differ by a quarter of the width of
    the interval before the step. *)
Lemma estimate_step_exact (a b : R) (k : nat) :
  a <= b ->
  Rabs (est (S k) a b - est k a b) = (b - a) / 2 ^ (k + 2).
Proof.
  intros Hab.
  pose proof (interval_after_exact_width f L w E I delta a b k) as Hw.
  pose proof (interval_after_exact_nested f L w E I delta a b k Hab) as Hn.
  unfold estimate_after. cbn [interval_after].
  destruct (iv k a b) as [x y].
  assert (H2k : 0 < 2 ^ k) by (apply pow_lt; lra).
  replace ((b - a) / 2 ^ (k + 2)) with ((y - x) / 4).
  2:{ rewrite Hw, pow_add. cbn [pow]. field. lra. }
  destruct (bisect_exact_cases f L w E I delta x y) as [-> | ->];
    rewrite !midpoint_exact.
  - replace (((x + y) / 2 + y) / 2 - (x + y) / 2) with ((y - x) / 4) by lra.
    apply Rabs_pos_eq. lra.
  - replace ((x + (x + y) / 2) / 2 - (x + y) / 2) with (- ((y - x) / 4))
      by lra.
    rewrite Rabs_Ropp. apply Rabs_pos_eq. lra.
Qed.

(** On the reals, for a bracket of positive numbers [0 < a <= b]: once
    [(b - a) * 100 < eps * a * 2^(K+2)], pass [K + 1] meets the tolerance at
    the latest.  So with [Nmax > K] the call returns without the message,
    after at most [K + 1] passes. *)
Theorem converges_within (a b eps : R) (Nmax : Z) (fuel K : nat) :
  0 < a <= b ->
  (b - a) * 100 < eps * a * 2 ^ (K + 2) ->
  (K < Z.to_nat Nmax)%nat ->
  (Z.to_nat Nmax < fuel)%nat ->
  exists out : outcome,
    bisection_iterations fuel f L w E I delta a b eps Nmax = Some (Ok out)
    /\ printed (final out) = []
    /\ (1 <= snd (returned out) <= Z.of_nat K + 1)%Z.
Proof.
  intros Hab HK HN Hfuel.
  assert (Hpos : forall k, 0 < est k a b).
  { intros k.
    pose proof (estimate_after_exact_within f L w E I delta a b k) as H.
    lra. }
  assert (HconvK : pass_converges f L w E I delta eps a b K).
  { unfold pass_converges.
    assert (Hnz : eqb (est (S K) a b) zero = false).
    { apply Reqb_false. pose proof (Hpos (S K)). cbn [zero reals]. lra. }
    rewrite (relative_error_nonzero _ _ Hnz).
    eexists; split; [reflexivity|].
    cbn [ltb mul absolute quot sub hundred reals]. apply Rltb_true.
    unfold Rdiv. rewrite Rabs_mult, Rabs_inv.
    rewrite estimate_step_exact by lra.
    rewrite (Rabs_pos_eq (est (S K) a b)) by (pose proof (Hpos (S K)); lra).
    pose proof (estimate_after_exact_within f L w E I delta a b (S K)) as Hin.
    assert (H2 : 0 < 2 ^ (K + 2)) by (apply pow_lt; lra).
    assert (Hx : 0 < est (S K) a b) by apply Hpos.
    assert (Hle : (b - a) / 2 ^ (K + 2) * / est (S K) a b
                  <= (b - a) / 2 ^ (K + 2) * / a).
    { apply Rmult_le_compat_l.
      - apply Rmult_le_pos; [lra|]. left. apply Rinv_0_lt_compat. exact H2.
      - apply Rinv_le_contravar; lra. }
    assert (Hlt : (b - a) / 2 ^ (K + 2) * / a * 100 < eps).
    { apply Rmult_lt_reg_r with (a * 2 ^ (K + 2)).
      - apply Rmult_lt_0_compat; lra.
      - replace ((b - a) / 2 ^ (K + 2) * / a * 100 * (a * 2 ^ (K + 2)))
          with ((b - a) * 100) by (field; lra).
        lra. }
    fold (Rdiv (b - a) (2 ^ (K + 2))). lra. }
  destruct (bisection_iterations_exit f L w E I delta eps Nmax a b fuel Hfuel)
    as [j Hj Hall Hz Hr|j s Hj Hall Hc Hr Hs|s Hall Hr Hs].
  - unfold pass_faults in Hz. apply Reqb_true in Hz.
    pose proof (Hpos (S j)). cbn [zero reals] in Hz. lra.
  - destruct (Nat.lt_ge_cases K j) as [HKj|HKj].
    + destruct (continues_not_converges f L w E I delta eps a b K
                  (Hall K HKj) HconvK).
    + destruct Hs as (_ & _ & Hpr & _).
      eexists. split; [exact Hr|]. cbn [final returned snd].
      split; [exact Hpr|lia].
  - destruct (continues_not_converges f L w E I delta eps a b K
                (Hall K HN) HconvK).
Qed.

End ExactConvergence.

(** ** The beam objective on the reals *)

Module ExactNotebook.

(** [f(x,L,w,E,I,delta)], that is
    [delta+w*x/24/E/I*(L**3-2*L*x**2+x**3)], on the reals: the divisions
    are evaluated left to right and raise on a zero divisor. *)
Definition f (x L w E I delta : R) : result R :=
  q1 <- truediv (w * x)%R 24%R ;;
  q2 <- truediv q1 E ;;
  q3 <- truediv q2 I ;;
  Ok (delta + q3 * (L ^ 3 - 2 * L * x ^ 2 + x ^ 3))%R.

(** The value [f] returns when it raises nothing, as a total objective for
    [bisect]. *)
Definition f_value : objective R :=
  fun x L w E I delta =>
    (delta + w * x / 24 / E / I * (L ^ 3 - 2 * L * x ^ 2 + x ^ 3))%R.

End ExactNotebook.

Section ExactBeam.

Open Scope R_scope.

Variables L w E I delta : R.

Lemma truediv_exact_nonzero (x y : R) :
  y <> 0 -> truediv x y = Ok (x / y).
Proof.
  intros H. unfold truediv. cbn [eqb zero quot reals].
  apply Reqb_false in H. now rewrite H.
Qed.

Lemma truediv_exact_zero (x : R) : truediv x 0 = Raise ZeroDivisionError.
Proof.
  unfold truediv. cbn [eqb zero quot reals].
  assert (H : Reqb 0 0 = true) by now apply Reqb_true.
  now rewrite H.
Qed.

(** With nonzero [E] and [I] the objective raises nothing and returns
    [f_value]. *)
Lemma beam_value (x : R) :
  E <> 0 -> I <> 0 ->
  ExactNotebook.f x L w E I delta
  = Ok (ExactNotebook.f_value x L w E I delta).
Proof.
  intros HE HI. unfold ExactNotebook.f, ExactNotebook.f_value.
  rewrite truediv_exact_nonzero by lra. cbn [bind].
  rewrite (truediv_exact_nonzero _ _ HE). cbn [bind].
  rewrite (truediv_exact_nonzero _ _ HI). reflexivity.
Qed.

(** A zero modulus [E] or a zero moment of inertia [I] makes the objective
    raise [ZeroDivisionError], at every [x]. *)
Theorem beam_zero_stiffness_raises (x : R) :
  E = 0 \/ I = 0 ->
  ExactNotebook.f x L w E I delta = Raise ZeroDivisionError.
Proof.
  intros H. unfold ExactNotebook.f.
  rewrite truediv_exact_nonzero by lra. cbn [bind].
  destruct (Req_dec_T E 0) as [->|HE].
  - now rewrite truediv_exact_zero.
  - rewrite (truediv_exact_nonzero _ _ HE). cbn [bind].
    destruct H as [H|H]; [contradiction|]. subst I.
    now rewrite truediv_exact_zero.
Qed.

(** The deflection curve is symmetric about midspan: the objective takes
    the same value (or raises alike) at [x] and at [L - x]. *)
Theorem beam_symmetric (x : R) :
  ExactNotebook.f (L - x) L w E I delta = ExactNotebook.f x L w E I delta.
Proof.
  destruct (Req_dec_T E 0) as [HE|HE].
  - rewrite !beam_zero_stiffness_raises by (now left). reflexivity.
  - destruct (Req_dec_T I 0) as [HI|HI].
    + rewrite !beam_zero_stiffness_raises by (now right). reflexivity.
    + rewrite !beam_value by assumption. f_equal.
      unfold ExactNotebook.f_value. field. split; assumption.
Qed.

(** With nonzero [E] and [I]: at the supports [x = 0] and [x = L] the
    objective is [delta], and at midspan it is
    [delta + 5 w L^4 / (384 E I)]. *)
Theorem beam_supports_and_midspan :
  E <> 0 -> I <> 0 ->
  ExactNotebook.f 0 L w E I delta = Ok delta
  /\ ExactNotebook.f L L w E I delta = Ok delta
  /\ ExactNotebook.f (L / 2) L w E I delta
     = Ok (delta + 5 * w * L ^ 4 / (384 * E * I)).
Proof.
  intros HE HI. rewrite !beam_value by assumption.
  unfold ExactNotebook.f_value.
  repeat split; f_equal; field; split; assumption.
Qed.

Lemma beam_continuous :
  continuity (fun x => ExactNotebook.f_value x L w E I delta).
Proof. unfold ExactNotebook.f_value. reg. Qed.

(** The notebook's use of the root finder, on the reals: for a beam with
    positive [L], [w], [E], [I] and a target deflection [delta] between
    [- 5 w L^4 / (384 E I)] and [0], the half span [(0, L/2)] is a bracket,
    the call ends, and an estimate it returns with count [n] is within
    [(L/2) / 2^n] of a point of the half span where the objective is
    zero. *)
Theorem beam_half_span_root (eps : R) (Nmax : Z) (fuel : nat) :
  0 < L -> 0 < w -> 0 < E -> 0 < I ->
  - (5 * w * L ^ 4 / (384 * E * I)) < delta < 0 ->
  (Z.to_nat Nmax < fuel)%nat ->
  exists r : result outcome,
    bisection_iterations fuel ExactNotebook.f_value L w E I delta
      0 (L / 2) eps Nmax = Some r
    /\ forall out : outcome,
         r = Ok out ->
         exists z : R,
           0 <= z <= L / 2
           /\ ExactNotebook.f z L w E I delta = Ok 0
           /\ Rabs (fst (returned out) - z)
              <= (L / 2) / 2 ^ Z.to_nat (snd (returned out)).
Proof.
  intros HL Hw HE HI Hd Hfuel.
  assert (HE0 : E <> 0) by lra. assert (HI0 : I <> 0) by lra.
  assert (H0 : ExactNotebook.f_value 0 L w E I delta = delta).
  { unfold ExactNotebook.f_value. field. split; assumption. }
  assert (Hm : ExactNotebook.f_value (L / 2) L w E I delta
               = delta + 5 * w * L ^ 4 / (384 * E * I)).
  { unfold ExactNotebook.f_value. field. split; assumption. }
  assert (Hsgn : sgn (ExactNotebook.f_value 0 L w E I delta)
                 <> sgn (ExactNotebook.f_value (L / 2) L w E I delta)).
  { rewrite H0, Hm.
    destruct (sgn_exact delta) as (_ & Hneg & _).
    destruct (sgn_exact (delta + 5 * w * L ^ 4 / (384 * E * I)))
      as (Hpos & _ & _).
    rewrite Hneg, Hpos by lra. discriminate. }
  destruct (returned_estimate_near_root ExactNotebook.f_value L w E I delta
              beam_continuous 0 (L / 2) eps Nmax fuel
              ltac:(lra) Hsgn Hfuel) as [r [Hr Hout]].
  exists r. split; [exact Hr|]. intros out Heq.
  destruct (Hout out Heq) as [z (Hz & Hfz & Hbound)].
  exists z. split; [lra|]. split.
  - rewrite beam_value by assumption. now rewrite Hfz.
  - replace (L / 2 - 0) with (L / 2) in Hbound by lra. exact Hbound.
Qed.

End ExactBeam.

(** *** The properties on the reals at concrete inputs *)

Section ExactRunsMore.

Local Open Scope R_scope.

(** [lambda x,L,w,E,I,delta: x - delta] on the reals. *)
Definition offset_exact : objective R := fun x _ _ _ _ d => x - d.

Lemma offset_exact_continuous :
  continuity (fun x => offset_exact x 0 0 0 0 (3 / 8)).
Proof. unfold offset_exact. reg. Qed.

Lemma offset_exact_bracket :
  sgn (offset_exact 0 0 0 0 0 (3 / 8)) <> sgn (offset_exact 1 0 0 0 0 (3 / 8)).
Proof.
  unfold offset_exact.
  destruct (sgn_exact (0 - 3 / 8)) as (_ & Hneg & _).
  destruct (sgn_exact (1 - 3 / 8)) as (Hpos & _ & _).
  rewrite Hneg, Hpos by lra. discriminate.
Qed.

Lemma bracket_encloses_root_witness :
  let '(x, y) := interval_after offset_exact 0 0 0 0 (3 / 8) 2 0 1 in
  exists z : R, x <= z <= y /\ offset_exact z 0 0 0 0 (3 / 8) = 0.
Proof.
  exact (bracket_encloses_root offset_exact 0 0 0 0 (3 / 8)
           offset_exact_continuous 0 1 2 ltac:(lra) offset_exact_bracket).
Defined.

Lemma returned_estimate_near_root_witness :
  exists r : result outcome,
    bisection_iterations 3%nat offset_exact 0 0 0 0 (3 / 8) 0 1 1 2%Z = Some r
    /\ forall out : outcome,
         r = Ok out ->
         exists z : R,
           0 <= z <= 1 /\ offset_exact z 0 0 0 0 (3 / 8) = 0
           /\ Rabs (fst (returned out) - z)
              <= (1 - 0) / 2 ^ Z.to_nat (snd (returned out)).
Proof.
  exact (returned_estimate_near_root offset_exact 0 0 0 0 (3 / 8)
           offset_exact_continuous 0 1 1 2%Z 3%nat ltac:(lra)
           offset_exact_bracket ltac:(cbn; lia)).
Defined.

Lemma converges_within_witness :
  exists out : outcome,
    bisection_iterations 7%nat offset_exact 0 0 0 0 (3 / 2) 1 2 1 6%Z
    = Some (Ok out)
    /\ printed (final out) = []
    /\ (1 <= snd (returned out) <= Z.of_nat 5 + 1)%Z.
Proof.
  exact (converges_within offset_exact 0 0 0 0 (3 / 2) 1 2 1 6%Z 7%nat 5%nat
           ltac:(lra) ltac:(cbn [Nat.add pow]; lra) ltac:(cbn; lia)
           ltac:(cbn; lia)).
Defined.

Lemma beam_zero_stiffness_raises_witness :
  ExactNotebook.f (1 / 4) 1 1000 0 1 (-1 / 25) = Raise ZeroDivisionError.
Proof.
  exact (beam_zero_stiffness_raises 1 1000 0 1 (-1 / 25) (1 / 4)
           (or_introl eq_refl)).
Defined.

Lemma beam_supports_and_midspan_witness :
  ExactNotebook.f 0 2 1 1 1 0 = Ok 0
  /\ ExactNotebook.f 2 2 1 1 1 0 = Ok 0
  /\ ExactNotebook.f (2 / 2) 2 1 1 1 0
     = Ok (0 + 5 * 1 * 2 ^ 4 / (384 * 1 * 1)).
Proof.
  exact (beam_supports_and_midspan 2 1 1 1 0 ltac:(lra) ltac:(lra)).
Defined.

Lemma beam_half_span_root_witness :
  exists r : result outcome,
    bisection_iterations 3%nat ExactNotebook.f_value 1 1 1 1 (-1 / 384)
      0 (1 / 2) 1 2%Z = Some r
    /\ forall out : outcome,
         r = Ok out ->
         exists z : R,
           0 <= z <= 1 / 2
           /\ ExactNotebook.f z 1 1 1 1 (-1 / 384) = Ok 0
           /\ Rabs (fst (returned out) - z)
              <= (1 / 2) / 2 ^ Z.to_nat (snd (returned out)).
Proof.
  exact (beam_half_span_root 1 1 1 1 (-1 / 384) 1 2%Z 3%nat
           ltac:(lra) ltac:(lra) ltac:(lra) ltac:(lra) ltac:(lra)
           ltac:(cbn; lia)).
Defined.

End ExactRunsMore.
